(** * MCP chat interface: process/protocol manager and chat frontend.

    The backend process manager (Protocol Engine, Server Registry, Process
    Supervisor, Tool Cache) is not part of the sources at hand; its parts
    below are modelled from the specification.  The frontend parts
    ([sendMessage], [isJsonString], [parseJsonSafely], the tool message
    renderer) are translated from [src/unnamed/part_001] (the newer
    [page.tsx]); [src/frontend/src/app/page.tsx] has the same [sendMessage]. *)

From Stdlib Require Import String Ascii.
From stdpp Require Import base list gmap strings sorting pretty.

Set Warnings "-register-all".



(* ================================================================= *)
(** ** Protocol Engine (one per connection) *)
(* ================================================================= *)

Module Engine.

(* The Protocol Engine's [invoke] with its in-flight table, invoke
   queue, timeouts and response correlation (spec section 4.3 and
   section 5); the source of the backend is not available. *)

(** Reply frames: [{id, result}] or [{id, error: {code, message}}]. *)
Inductive Reply :=
| RResult (result : string)
| RError (code : Z) (message : string).

(** What [invoke] returns to its caller. *)
Inductive Outcome :=
| OResult (result : string)
| ORemoteError (message : string)
| ORequestTimeout
| OProcessCrashed.

(** An [invoke] call waiting in the per-connection invoke queue; the
    ticket identifies the suspended caller. *)
Record Call := mkCall {
  c_ticket : nat;
  c_method : string;
  c_timeout : nat
}.

(** PendingRequest: [{id, method, issued_at, result slot}]; the result
    slot is the caller's ticket. *)
Record Pending := mkPending {
  p_id : nat;
  p_ticket : nat;
  p_method : string;
  p_issued_at : nat;
  p_deadline : nat
}.

Record engine := mkEngine {
  next_id : nat;                    (** next unused request id *)
  waiting : list Call;              (** invoke queue *)
  pending : list Pending;           (** in-flight table *)
  wire : list (nat * string);       (** framed requests written to stdin *)
  results : list (nat * Outcome);   (** outcomes handed back to callers *)
  log : list string                 (** entries forwarded to the Log Monitor *)
}.

Definition fresh : engine := mkEngine 1 [] [] [] [] [].

Definition outcome_of (r : Reply) : Outcome :=
  match r with
  | RResult v => OResult v
  | RError _ msg => ORemoteError msg
  end.

(** Modelled from the spec: the Protocol Engine's serialization (no
    source available).  A queued call is only written when nothing is in
    flight; it then gets the next id, a PendingRequest and its frame. *)
Definition dispatch (now : nat) (st : engine) : engine :=
  match pending st, waiting st with
  | [], c :: rest =>
      let id := next_id st in
      mkEngine (S id) rest
        [mkPending id (c_ticket c) (c_method c) now (now + c_timeout c)]
        (wire st ++ [(id, c_method c)]) (results st) (log st)
  | _, _ => st
  end.

(** Modelled from the spec: the Protocol Engine's
    [invoke(method, params, timeout)] (no source available), issued by
    caller [c_ticket c]. *)
Definition invoke (c : Call) (now : nat) (st : engine) : engine :=
  dispatch now
    (mkEngine (next_id st) (waiting st ++ [c]) (pending st) (wire st)
       (results st) (log st)).

Definition find_pending (id : nat) (ps : list Pending) : option Pending :=
  List.find (fun p => Nat.eqb (p_id p) id) ps.

Definition remove_pending (id : nat) (ps : list Pending) : list Pending :=
  List.filter (fun p => negb (Nat.eqb (p_id p) id)) ps.

(** Modelled from the spec: the Protocol Engine's response correlation
    (no source available).  A response frame [{id, ...}] read from stdout
    is resolved against its PendingRequest, or logged and discarded when
    there is none. *)
Definition on_response (now : nat) (id : nat) (r : Reply) (st : engine)
  : engine :=
  match find_pending id (pending st) with
  | Some p =>
      dispatch now
        (mkEngine (next_id st) (waiting st) (remove_pending id (pending st))
           (wire st) (results st ++ [(p_ticket p, outcome_of r)]) (log st))
  | None =>
      mkEngine (next_id st) (waiting st) (pending st) (wire st) (results st)
        (log st ++ ["discarded response without pending request"%string])
  end.

Definition expired (now : nat) (p : Pending) : bool := p_deadline p <=? now.

(** Modelled from the spec: the Protocol Engine's timeout (no source
    available).  Every PendingRequest whose timeout has elapsed is removed
    and its caller gets [RequestTimeout]. *)
Definition tick (now : nat) (st : engine) : engine :=
  let gone := List.filter (expired now) (pending st) in
  dispatch now
    (mkEngine (next_id st) (waiting st)
       (List.filter (fun p => negb (expired now p)) (pending st))
       (wire st)
       (results st ++ map (fun p => (p_ticket p, ORequestTimeout)) gone)
       (log st)).

(** Modelled from the spec: connection loss in the Protocol Engine (no
    source available).  Every pending and queued call fails with
    [ProcessCrashed]. *)
Definition crash (st : engine) : engine :=
  mkEngine (next_id st) [] [] (wire st)
    (results st ++ map (fun p => (p_ticket p, OProcessCrashed)) (pending st)
       ++ map (fun c => (c_ticket c, OProcessCrashed)) (waiting st))
    (log st).

Inductive step : engine -> engine -> Prop :=
| StInvoke c now st : step st (invoke c now st)
| StResponse now id r st : step st (on_response now id r st)
| StTick now st : step st (tick now st)
| StCrash st : step st (crash st).

Inductive reachable : engine -> Prop :=
| ReachFresh : reachable fresh
| ReachStep st st' : reachable st -> step st st' -> reachable st'.

End Engine.

(* ================================================================= *)
(** ** Server Registry *)
(* ================================================================= *)

Module Registry.

(* The Template Catalog and the Server Registry's [create] (spec
   section 3 and section 4.1); the registry source is not available. *)

Record Template := mkTemplate {
  t_kind : string;
  t_launch_command : string;
  t_base_args : list string;
  t_required_env_keys : list string;
  t_description : string
}.

Record ServerConfig := mkServerConfig {
  name : string;
  kind : string;
  args : list string;
  env : gmap string string;
  enabled : bool
}.

Inductive RegistryError :=
| NameConflict
| UnknownTemplate
| MissingEnv
| NotFound
| PersistError.

(** In-memory configs and the copy last persisted to the external store. *)
Record registry := mkRegistry {
  configs : gmap string ServerConfig;
  store : gmap string ServerConfig
}.

(** Modelled from the spec: the Server Registry's
    [create(name, kind, overrides)] (no source available); [proc_env] is the process-wide
    environment and [persist_ok] the outcome of the synchronous write to
    the external store (on failure the in-memory state is rolled back). *)
Definition create (catalog : gmap string Template)
    (proc_env : gmap string string) (persist_ok : bool)
    (n k : string) (overrides : gmap string string) (r : registry)
  : (unit + RegistryError) * registry :=
  match configs r !! n with
  | Some _ => (inr NameConflict, r)
  | None =>
      match catalog !! k with
      | None => (inr UnknownTemplate, r)
      | Some t =>
          let merged := overrides ∪ proc_env in
          if forallb (fun key => bool_decide (is_Some (merged !! key)))
               (t_required_env_keys t)
          then
            let cfgs := <[n := mkServerConfig n k (t_base_args t) merged true]>
                          (configs r) in
            if persist_ok then (inl tt, mkRegistry cfgs cfgs)
            else (inr PersistError, r)
          else (inr MissingEnv, r)
      end
  end.

End Registry.

(* ================================================================= *)
(** ** Process Supervisor and Tool Cache *)
(* ================================================================= *)

Module Supervisor.
Import Engine Registry.

(* The per-server lifecycle state machine, [start], [stop], detection
   of unexpected exits and the Tool Cache (spec section 3, section 4.2
   and section 4.5); the supervisor source is not available.  [start]
   suspends until the handshake has completed, so it is one transition;
   what the child process does (spawn result, handshake answer,
   discovery answer) is an input. *)

Inductive Lifecycle :=
| Stopped
| Starting
| Running
| Stopping
| Failed (reason : string).

Record ProcessHandle := mkHandle {
  h_name : string;
  h_pid : nat;
  h_started_at : nat
}.

Record ToolDefinition := mkTool {
  tool_name : string;
  tool_description : string;
  tool_input_schema : string
}.

Record Entry := mkEntry {
  e_state : Lifecycle;
  e_handle : option ProcessHandle;
  e_engine : engine
}.

Inductive Signal := SigTerm | SigKill.

Record sup := mkSup {
  entries : gmap string Entry;
  tool_cache : gmap string (list ToolDefinition);
  next_pid : nat;
  transitions : list (string * Lifecycle);   (** lifecycle history *)
  signals : list (nat * Signal)              (** signals sent to pids *)
}.

Definition init : sup := mkSup ∅ ∅ 1 [] [].

(** What the launched provider does during [start]. *)
Inductive StartOutcome :=
| SpawnFails (msg : string)
| HandshakeFails (msg : string)
| HandshakeOk (discovered : option (list ToolDefinition)).

Inductive StartError :=
| SpawnError (msg : string)
| HandshakeError (msg : string).

Inductive StartResult :=
| StartOk (h : ProcessHandle) (warning : option string)
| StartErr (e : StartError).

Definition handshake_timeout : nat := 10.

(** The connection after [initialize] and [tools/list]; a failed
    discovery ends in a timeout of the [tools/list] request. *)
Definition after_handshake (now : nat) (discovered : option (list ToolDefinition))
  : engine :=
  let e1 := invoke (mkCall 0 "initialize" handshake_timeout) now fresh in
  let e2 := on_response now 1 (RResult "initialize") e1 in
  let e3 := invoke (mkCall 1 "tools/list" handshake_timeout) now e2 in
  match discovered with
  | Some _ => on_response now 2 (RResult "tools/list") e3
  | None => tick (now + handshake_timeout) e3
  end.

(** Modelled from the spec: the Supervisor's launch (no source
    available).  Launch the configured command, go to [Starting] and
    perform the handshake and tool discovery. *)
Definition launch (cfg : ServerConfig) (now : nat) (out : StartOutcome) (s : sup)
  : StartResult * sup :=
  let n := name cfg in
      match out with
      | SpawnFails msg =>
          (StartErr (SpawnError msg),
           mkSup (<[n := mkEntry (Failed msg) None fresh]> (entries s))
             (tool_cache s) (next_pid s)
             (transitions s ++ [(n, Starting); (n, Failed msg)]) (signals s))
      | HandshakeFails msg =>
          (StartErr (HandshakeError msg),
           mkSup (<[n := mkEntry (Failed msg) None fresh]> (entries s))
             (tool_cache s) (S (next_pid s))
             (transitions s ++ [(n, Starting); (n, Failed msg)]) (signals s))
      | HandshakeOk disc =>
          let h := mkHandle n (next_pid s) now in
          (StartOk h (match disc with
                      | Some _ => None
                      | None => Some "tool discovery failed"%string
                      end),
           mkSup (<[n := mkEntry Running (Some h) (after_handshake now disc)]>
                    (entries s))
             (<[n := default [] disc]> (tool_cache s)) (S (next_pid s))
             (transitions s ++ [(n, Starting); (n, Running)]) (signals s))
      end.

(** Modelled from the spec: the Supervisor's [start(config)] (no source
    available), a no-op returning the existing handle when the server is
    already [Running]. *)
Definition start (cfg : ServerConfig) (now : nat) (out : StartOutcome) (s : sup)
  : StartResult * sup :=
  match entries s !! name cfg with
  | Some (mkEntry Running (Some h) _) => (StartOk h None, s)
  | _ => launch cfg now out s
  end.

(** Modelled from the spec: the Supervisor's [stop(name)] (no source
    available): graceful termination request, forced termination when
    the process is still alive after the grace period ([graceful] says
    whether it exited in time); requests still on the connection fail
    with [ProcessCrashed]. *)
Definition stop (n : string) (graceful : bool) (s : sup) : sup :=
  let old := entries s !! n in
  let sigs := match old with
              | Some (mkEntry _ (Some h) _) =>
                  (h_pid h, SigTerm)
                    :: (if graceful then [] else [(h_pid h, SigKill)])
              | _ => []
              end in
  let eng := match old with Some e => crash (e_engine e) | None => fresh end in
  mkSup (<[n := mkEntry Stopped None eng]> (entries s))
    (delete n (tool_cache s)) (next_pid s)
    (transitions s ++ [(n, Stopping); (n, Stopped)]) (signals s ++ sigs).

Definition exit_reason : string := "process exited unexpectedly".

(** Modelled from the spec: the Supervisor's handling of an unexpected
    exit of the process of server [n] (no source available). *)
Definition process_exited (n : string) (s : sup) : sup :=
  match entries s !! n with
  | Some (mkEntry Running _ eng) =>
      mkSup (<[n := mkEntry (Failed exit_reason) None (crash eng)]> (entries s))
        (delete n (tool_cache s)) (next_pid s)
        (transitions s ++ [(n, Failed exit_reason)]) (signals s)
  | _ => s
  end.

Inductive EngineEvent :=
| EInvoke (c : Call) (now : nat)
| EResponse (now id : nat) (r : Reply)
| ETick (now : nat).

Definition run_engine_event (ev : EngineEvent) (eng : engine) : engine :=
  match ev with
  | EInvoke c now => invoke c now eng
  | EResponse now id r => on_response now id r eng
  | ETick now => tick now eng
  end.

(** Traffic on the connection of a running server. *)
Definition on_connection (n : string) (ev : EngineEvent) (s : sup) : sup :=
  match entries s !! n with
  | Some (mkEntry Running h eng) =>
      mkSup (<[n := mkEntry Running h (run_engine_event ev eng)]> (entries s))
        (tool_cache s) (next_pid s) (transitions s) (signals s)
  | _ => s
  end.

Inductive SupEvent :=
| EvStart (cfg : ServerConfig) (now : nat) (out : StartOutcome)
| EvStop (n : string) (graceful : bool)
| EvExit (n : string)
| EvConn (n : string) (ev : EngineEvent).

Definition run_event (ev : SupEvent) (s : sup) : sup :=
  match ev with
  | EvStart cfg now out => snd (start cfg now out s)
  | EvStop n g => stop n g s
  | EvExit n => process_exited n s
  | EvConn n e => on_connection n e s
  end.

Inductive reachable : sup -> Prop :=
| SReachInit : reachable init
| SReachStep ev s : reachable s -> reachable (run_event ev s).

End Supervisor.

(* ================================================================= *)
(** ** Chat endpoint: tool set of a conversation *)
(* ================================================================= *)

Module Chat.
Import Supervisor.

(** Modelled from the spec: the Tool Cache's [allTools(selectedNames)]
    (section 4.5; no source available).  A qualified name is the server
    name, a dot and the tool name. *)
Definition allTools (cache : gmap string (list ToolDefinition))
    (selected : list string) : list (string * (string * ToolDefinition)) :=
  List.concat
    (List.map (fun n =>
       List.map (fun t => (String.append n (String.append "." (tool_name t)), (n, t)))
         (default [] (cache !! n)))
       selected).

(** Modelled from the spec: the chat endpoint's tool set for the
    [enabled_servers] of a request (section 9, open question: zero
    selected servers is a valid, empty tool set; a request whose
    [enabled_servers] is null selects zero servers).  The backend source
    is not available. *)
Definition chat_tools (cache : gmap string (list ToolDefinition))
    (enabled_servers : option (list string))
  : list (string * (string * ToolDefinition)) :=
  allTools cache (default [] enabled_servers).

End Chat.

(* ================================================================= *)
(** ** Frontend ([page.tsx]) *)
(* ================================================================= *)

Module Frontend.

(** JavaScript exceptions and a computation that may throw. *)
Inductive Exn :=
| SyntaxError (msg : string)
| TypeError (msg : string)
| NetworkError (msg : string).

Inductive Result (A : Type) :=
| Ok (a : A)
| Throw (e : Exn).
Arguments Ok {A} a.
Arguments Throw {A} e.

Definition bind {A B} (m : Result A) (f : A -> Result B) : Result B :=
  match m with Ok a => f a | Throw e => Throw e end.

(** [try { m } catch { h }] *)
Definition try_catch {A} (m : Result A) (h : Exn -> Result A) : Result A :=
  match m with Ok a => Ok a | Throw e => h e end.

(** A value produced by [JSON.parse]; a number is kept as its text. *)
Inductive json :=
| JNull
| JBool (b : bool)
| JNumber (repr : string)
| JString (s : string)
| JArray (items : list json)
| JObject (fields : list (string * json)).

(** [String.prototype.trim] over 8-bit characters: tab, line feed,
    vertical tab, form feed, carriage return, space and no-break space. *)
Definition is_js_space (c : ascii) : bool :=
  let n := nat_of_ascii c in
  ((9 <=? n) && (n <=? 13)) || (n =? 32) || (n =? 160).

Fixpoint drop_spaces (l : list ascii) : list ascii :=
  match l with
  | [] => []
  | c :: rest => if is_js_space c then drop_spaces rest else l
  end.

Definition trim (s : string) : string :=
  string_of_list_ascii
    (rev (drop_spaces (rev (drop_spaces (list_ascii_of_string s))))).

Definition startsWith (c : ascii) (t : string) : bool :=
  match t with
  | String c' _ => Ascii.eqb c' c
  | EmptyString => false
  end.

Fixpoint last_char (t : string) : option ascii :=
  match t with
  | EmptyString => None
  | String c EmptyString => Some c
  | String _ rest => last_char rest
  end.

Definition endsWith (c : ascii) (t : string) : bool :=
  match last_char t with
  | Some c' => Ascii.eqb c' c
  | None => false
  end.

Definition isJsonString (str : string) : Result bool :=
  try_catch
    (let trimmed := trim str in
     Ok ((startsWith "{" trimmed && endsWith "}" trimmed) ||
         (startsWith "[" trimmed && endsWith "]" trimmed)))
    (fun _ => Ok false).

Section Rendering.

(** [JSON.parse]: the parsed value, or a thrown [SyntaxError]. *)
Variable JSON_parse : string -> Result json.

Definition parseJsonSafely (str : string) : Result json :=
  try_catch (JSON_parse str) (fun _ => Ok JNull).

Inductive Key := KIndex (i : nat) | KField (k : string).

(** What [JsonTreeViewer] renders (initial, uncollapsed-by-user state). *)
Inductive view :=
| VLeaf (cls : string) (text : string)
| VEmpty (isArray : bool)
| VTree (collapsed : bool) (count : nat) (children : list (Key * view)).

Definition dq : string := String (ascii_of_nat 34) EmptyString.

Fixpoint JsonTreeViewer (level : nat) (data : json) : view :=
  match data with
  | JNull => VLeaf "text-gray-500" "null"
  | JBool b => VLeaf "text-purple-600" (if b then "true" else "false")
  | JNumber r => VLeaf "text-blue-600" r
  | JString s => VLeaf "text-green-600" (String.append dq (String.append s dq))
  | JArray [] => VEmpty true
  | JObject [] => VEmpty false
  | JArray items =>
      let collapsed := 2 <? level in
      VTree collapsed (length items)
        (if collapsed then []
         else zip (map KIndex (seq 0 (length items)))
                  (map (JsonTreeViewer (S level)) items))
  | JObject fields =>
      let collapsed := 2 <? level in
      VTree collapsed (length fields)
        (if collapsed then []
         else map (fun kv => (KField kv.1, JsonTreeViewer (S level) kv.2)) fields)
  end.

Inductive Role := User | Assistant | Tool.

(** [Date | string | null]; a [Date] is kept as its ISO text. *)
Inductive Timestamp := TDate (iso : string) | TString (s : string) | TNull.

Record Message := mkMessage {
  role : Role;
  content : string;
  toolName : option string;
  timestamp : Timestamp
}.

Inductive Rendered :=
| RJsonTree (v : view)
| RJsonPreview (text : string)
| RText (text : string).

(** The body of a message bubble ([expanded]: [expandedMessages.has(index)]). *)
Definition render_content (m : Message) (expanded : bool) : Result Rendered :=
  match role m with
  | Tool =>
      bind (isJsonString (content m)) (fun isJson =>
        if isJson then
          if expanded then
            bind (parseJsonSafely (content m)) (fun d =>
              Ok (RJsonTree (JsonTreeViewer 0 d)))
          else
            Ok (RJsonPreview
                  (if 200 <? String.length (content m)
                   then String.append (substring 0 200 (content m)) "..."
                   else content m))
        else Ok (RText (content m)))
  | _ => Ok (RText (content m))
  end.

End Rendering.

(** The chat request body sent by [sendMessage]. *)
Record HistoryItem := mkHistoryItem {
  h_role : Role;
  h_content : string;
  h_toolName : option string;
  h_timestamp : string
}.

Record ChatBody := mkChatBody {
  message : string;
  enabled_servers : option (list string);
  history : list HistoryItem
}.

(** The part of the [Home] component state [sendMessage] reads and
    writes; [inflight] holds the [/chat] requests issued and not yet
    settled.  An event handler sees the state committed by the previous
    render. *)
Record ui := mkUi {
  messages : list Message;
  input : string;
  loading : bool;
  selectedServers : list string;
  inflight : list ChatBody
}.

Definition ui_init : ui := mkUi [] "" false [] [].

(** [msg.timestamp] of the history, [now] being [new Date().toISOString()]:
    [null] is an object too, and [null?.toISOString()] is [undefined]. *)
Definition history_timestamp (now : string) (t : Timestamp) : string :=
  match t with
  | TDate iso => iso
  | TNull => now
  | TString s => if String.eqb s "" then now else s
  end.

Definition to_history (now : string) (msg : Message) : HistoryItem :=
  mkHistoryItem (role msg) (content msg) (toolName msg)
    (history_timestamp now (timestamp msg)).

Definition chat_body (now : string) (u : ui) : ChatBody :=
  mkChatBody (input u)
    (if 0 <? length (selectedServers u) then Some (selectedServers u) else None)
    (map (to_history now) (messages u)).

(** [sendMessage] up to its [await fetch(...)]: the guard, the optimistic
    user message, clearing the input, [setLoading(true)] and the request. *)
Definition sendMessage (now : string) (u : ui) : ui :=
  if String.eqb (trim (input u)) "" || loading u then u
  else
    mkUi (messages u ++ [mkMessage User (input u) None (TDate now)]) ""
      true (selectedServers u) (inflight u ++ [chat_body now u]).

(** A message of [data.messages]. *)
Record ServerMessage := mkServerMessage {
  sm_role : Role;
  sm_content : string;
  sm_toolName : option string;
  sm_timestamp : option string
}.

Definition from_server (now : string) (m : ServerMessage) : Message :=
  mkMessage (sm_role m) (sm_content m) (sm_toolName m)
    (TString (match sm_timestamp m with
              | Some s => if String.eqb s "" then now else s
              | None => now
              end)).

(** How the [/chat] request ends: a JSON body with or without a
    [messages] field, or an exception thrown by [fetch], [res.json()]
    or the mapping of [data.messages]. *)
Inductive ChatResponse :=
| RespData (msgs : option (list ServerMessage))
| RespThrows (e : Exn).

Definition error_text (e : Exn) : string :=
  match e with
  | SyntaxError m | TypeError m | NetworkError m => m
  end.

(** The rest of [sendMessage] once its request settles: the [try]
    appends the reply messages, the [catch] an error message, the
    [finally] runs [setLoading(false)]. *)
Definition settle (now : string) (resp : ChatResponse) (u : ui) : ui :=
  match inflight u with
  | [] => u
  | _ :: rest =>
      let msgs :=
        match resp with
        | RespData (Some ms) => messages u ++ map (from_server now) ms
        | RespData None => messages u
        | RespThrows e =>
            messages u ++
              [mkMessage Assistant (String.append "Error: " (error_text e))
                 None (TDate now)]
        end in
      mkUi msgs (input u) false (selectedServers u) rest
  end.

Inductive UiEvent :=
| UiSend (now : string)
| UiType (text : string)
| UiSelect (names : list string)
| UiSettle (now : string) (resp : ChatResponse).

Definition ui_event (ev : UiEvent) (u : ui) : ui :=
  match ev with
  | UiSend now => sendMessage now u
  | UiType text => mkUi (messages u) text (loading u) (selectedServers u) (inflight u)
  | UiSelect names => mkUi (messages u) (input u) (loading u) names (inflight u)
  | UiSettle now resp => settle now resp u
  end.

Inductive ui_reachable : ui -> Prop :=
| UiReachInit : ui_reachable ui_init
| UiReachStep ev u : ui_reachable u -> ui_reachable (ui_event ev u).

End Frontend.

(* ================================================================= *)
(** ** The rest of the [Home] component: expansion, toasts, servers *)
(* ================================================================= *)

(** [toggleMessageExpansion]: the functional update of [expandedMessages]. *)
Module Expansion.

Definition toggleMessageExpansion (index : nat) (prev : gset nat) : gset nat :=
  if decide (index ∈ prev) then prev ∖ {[index]} else {[index]} ∪ prev.

End Expansion.

(** [addToast] and [removeToast] over the [toasts] state and the
    [setTimeout] callbacks they schedule; [now] is [Date.now()]. *)
Module Toasts.

Inductive ToastType := Success | Error | Info.

Record Toast := mkToast {
  id : string;
  type : ToastType;
  message : string;
  duration : nat
}.

(** A pending [setTimeout]: when it fires and the id it removes. *)
Record Timer := mkTimer { fire_at : nat; removes : string }.

Record toastState := mkToastState {
  toasts : list Toast;
  timers : list Timer
}.

(** [Date.now().toString()] *)
Definition dateNowString (now : nat) : string := pretty (N.of_nat now).

(** [prev.filter(t => t.id !== id)] *)
Definition without_id (i : string) (l : list Toast) : list Toast :=
  List.filter (fun t => negb (String.eqb (id t) i)) l.

Definition addToast (now : nat) (typ : ToastType) (msg : string) (duration : nat)
    (st : toastState) : toastState :=
  let i := dateNowString now in
  mkToastState (toasts st ++ [mkToast i typ msg duration])
    (timers st ++ (if 0 <? duration then [mkTimer (now + duration) i] else [])).

Definition removeToast (i : string) (st : toastState) : toastState :=
  mkToastState (without_id i (toasts st)) (timers st).

(** The [k]-th scheduled callback runs. *)
Definition fireTimer (k : nat) (st : toastState) : toastState :=
  match timers st !! k with
  | Some t => mkToastState (without_id (removes t) (toasts st)) (delete k (timers st))
  | None => st
  end.

End Toasts.

(** The server list and the selection of [Home]: the two selection
    controls, [fetchServers], [deleteServer] and the [useEffect] that
    re-runs [fetchServers] whenever its [useCallback] dependency
    [selectedServers.length] changes. *)
Module Page.

Record Server := mkServer {
  name : string;
  type : string;
  description : string;
  enabled : bool;
  running : bool
}.

(** [selectedServers.includes(name)] *)
Definition includes (n : string) (l : list string) : bool :=
  existsb (String.eqb n) l.

(** [prev.filter(s => s !== name)] *)
Definition without (n : string) (l : list string) : list string :=
  List.filter (fun s => negb (String.eqb s n)) l.

(** The checkbox [onChange] of the configuration panel. *)
Definition checkboxChange (n : string) (checked : bool) (prev : list string) : list string :=
  if checked then prev ++ [n] else without n prev.

(** The [onClick] of a server icon in the compact sidebar. *)
Definition compactClick (server : Server) (n : string) (sel : list string) : list string :=
  if enabled server then
    if includes n sel then without n sel else sel ++ [n]
  else sel.

(** [Object.entries(data.servers).filter(...).map(([name]) => name)] *)
Definition enabledServers (servers : list (string * Server)) : list string :=
  map fst (List.filter (fun kv => enabled kv.2) servers).

(** How a [/servers] request ends: [data.success] with [data.servers],
    or a failure (the [else] branch or the [catch]), which only shows a
    toast. *)
Inductive FetchResult :=
| FetchOk (servers : list (string * Server))
| FetchFails.

(** [servers] in [Object.entries] order; [serverFetches] holds, for each
    [fetchServers] call in flight, whether the closure that issued it saw
    [selectedServers.length === 0]. *)
Record page := mkPage {
  servers : list (string * Server);
  selectedServers : list string;
  serverFetches : list bool
}.

(** After mounting: the [useEffect] has called [fetchServers] once. *)
Definition page_init : page := mkPage [] [] [true].

(** A call of [fetchServers] made from a render whose selection is [sel]. *)
Definition fetchServers_call (sel : list string) (p : page) : page :=
  mkPage (servers p) (selectedServers p)
    (serverFetches p ++ [Nat.eqb (length sel) 0]).

(** The [i]-th [fetchServers] in flight completes. *)
Definition fetchServers_done (i : nat) (r : FetchResult) (p : page) : page :=
  match (serverFetches p !! i : option bool) with
  | None => p
  | Some emptyAtCall =>
      let rest := delete i (serverFetches p) in
      match r with
      | FetchFails => mkPage (servers p) (selectedServers p) rest
      | FetchOk srvs =>
          mkPage srvs
            (if emptyAtCall then enabledServers srvs else selectedServers p) rest
      end
  end.

(** A render commits [after]: if [selectedServers.length] changed,
    [fetchServers] is a new function and the effect calls it. *)
Definition commit (before after : page) : page :=
  if Nat.eqb (length (selectedServers before)) (length (selectedServers after))
  then after
  else fetchServers_call (selectedServers after) after.

Definition set_selected (sel : list string) (p : page) : page :=
  mkPage (servers p) sel (serverFetches p).

Inductive PageEvent :=
| PCheckbox (row : nat)        (* a click on the checkbox of the [row]-th server *)
| PCompactClick (row : nat)    (* a click on the [row]-th icon of the compact view *)
| PRefresh                     (* the Refresh button *)
| PFetchDone (i : nat) (r : FetchResult)
| PDeleteOk (n : string).      (* [deleteServer n] confirmed and [data.success] *)

(** The state update of an event, before the effect. A disabled checkbox
    fires no [onChange]; an enabled one is controlled by
    [selectedServers.includes(name)], so a click reports the opposite. *)
Definition page_update (ev : PageEvent) (p : page) : page :=
  match ev with
  | PCheckbox row =>
      match servers p !! row with
      | Some (n, server) =>
          if enabled server
          then set_selected
                 (checkboxChange n (negb (includes n (selectedServers p)))
                    (selectedServers p)) p
          else p
      | None => p
      end
  | PCompactClick row =>
      match servers p !! row with
      | Some (n, server) =>
          set_selected (compactClick server n (selectedServers p)) p
      | None => p
      end
  | PRefresh => fetchServers_call (selectedServers p) p
  | PFetchDone i r => fetchServers_done i r p
  | PDeleteOk n =>
      fetchServers_call (selectedServers p)
        (set_selected (without n (selectedServers p)) p)
  end.

Definition page_event (ev : PageEvent) (p : page) : page :=
  commit p (page_update ev p).

End Page.

(** [handleKeyPress] of the message input. *)
Module Keys.
Import Frontend.

Definition handleKeyPress (key : string) (shiftKey : bool) (now : string) (u : ui) : ui :=
  if String.eqb key "Enter" && negb shiftKey then sendMessage now u else u.

End Keys.


(* ================================================================= *)
(** ** Concrete sample states *)
(* ================================================================= *)

Module Samples.
Import Engine Registry Supervisor Frontend.

(** One [tools/call] issued on a fresh connection (id 1, deadline 5). *)
Definition call_a : Call := mkCall 7 "tools/call" 5.
Definition call_b : Call := mkCall 8 "tools/list" 5.
Definition eng1 : engine := invoke call_a 0 fresh.
(** A second call queued behind it, then the first answered. *)
Definition eng2 : engine := invoke call_b 1 eng1.
Definition eng3 : engine := on_response 2 1 (RResult "ok") eng2.

Definition stripe_template : Template :=
  mkTemplate "stripe-like" "X" ["serve"] ["API_KEY"] "payments".
Definition cfg_s1 : ServerConfig :=
  mkServerConfig "s1" "stripe-like" ["serve"] (<["API_KEY" := "k"]> ∅) true.
Definition reg1 : registry :=
  mkRegistry (<["s1" := cfg_s1]> ∅) (<["s1" := cfg_s1]> ∅).

Definition list_items : ToolDefinition := mkTool "list_items" "List items" "{}".
(** [s1] started with a successful handshake and discovery. *)
Definition sup1 : sup := snd (start cfg_s1 0 (HandshakeOk (Some [list_items])) init).
(** A tool call in flight on [s1]. *)
Definition sup2 : sup := on_connection "s1" (EInvoke call_a 1) sup1.
Definition entry_s1 : Entry :=
  mkEntry Running (Some (mkHandle "s1" 1 0))
    (invoke call_a 1 (after_handshake 0 (Some [list_items]))).

Definition ui1 : ui := ui_event (UiType "hello") ui_init.
Definition ui2 : ui := ui_event (UiSend "T0") ui1.

End Samples.

(** Sample pages: an enabled and a disabled server. *)
Module PageSamples.

Definition srv_fs : Page.Server := Page.mkServer "fs" "filesystem" "Files" true false.
Definition srv_db : Page.Server := Page.mkServer "db" "sqlite" "Database" false false.
(** [fs] selected, no fetch in flight. *)
Definition page_a : Page.page := Page.mkPage [("fs", srv_fs); ("db", srv_db)] ["fs"] [].

End PageSamples.

(* ================================================================= *)
(** ** Protocol Engine: invariants *)
(* ================================================================= *)

Module EngineFacts.
Import Engine.

(** Strictly increasing sequence, stated by positions. *)
Definition increasing (l : list nat) : Prop :=
  forall i j x y, i < j -> l !! i = Some x -> l !! j = Some y -> x < y.

Record inv (st : engine) : Prop := {
  inv_single : length (pending st) <= 1;
  inv_pending_lt : forall p, p ∈ pending st -> p_id p < next_id st;
  inv_wire_lt : forall x, x ∈ map fst (wire st) -> x < next_id st;
  inv_wire_incr : increasing (map fst (wire st))
}.

Lemma increasing_snoc (l : list nat) n :
  increasing l -> (forall x, x ∈ l -> x < n) -> increasing (l ++ [n]).
Proof.
  intros Hi Hlt i j x y Hij Hx Hy.
  apply lookup_lt_Some in Hy as Hjlen. rewrite length_app in Hjlen; simpl in Hjlen.
  assert (i < length l) as Hil by lia.
  rewrite lookup_app_l in Hx; [|done].
  destruct (decide (j < length l)) as [Hjl|Hjl].
  - rewrite lookup_app_l in Hy; [|done]. eauto.
  - rewrite lookup_app_r in Hy; [|lia].
    replace (j - length l) with 0 in Hy by lia. simpl in Hy.
    injection Hy as <-. apply Hlt. by eapply list_elem_of_lookup_2.
Qed.

Lemma inv_fresh : inv fresh.
Proof.
  constructor; simpl.
  - lia.
  - intros p Hp. set_solver.
  - intros x Hx. set_solver.
  - intros i j x y _ Hx. done.
Qed.

Lemma inv_dispatch now st : inv st -> inv (dispatch now st).
Proof.
  intros [H1 H2 H3 H4]. unfold dispatch.
  destruct (pending st) as [|p ps] eqn:Hp; [|by constructor; rewrite ?Hp].
  destruct (waiting st) as [|c rest]; [by constructor; rewrite ?Hp|].
  constructor; simpl.
  - lia.
  - intros p Hin. apply list_elem_of_singleton in Hin as ->. simpl. lia.
  - intros x Hx. rewrite map_app in Hx. apply elem_of_app in Hx as [Hx|Hx].
    + specialize (H3 x Hx). lia.
    + simpl in Hx. apply list_elem_of_singleton in Hx as ->. lia.
  - rewrite map_app. simpl. apply increasing_snoc; [done|].
    intros x Hx. by apply H3.
Qed.

(** Dropping entries of the in-flight table keeps the invariant. *)
Lemma inv_shrink st w ps r l :
  inv st -> (forall p, p ∈ ps -> p ∈ pending st) ->
  length ps <= length (pending st) ->
  inv (mkEngine (next_id st) w ps (wire st) r l).
Proof.
  intros [H1 H2 H3 H4] Hsub Hlen. constructor; simpl; auto.
  - lia.
Qed.

Lemma filter_length_le {A} (f : A -> bool) (l : list A) :
  length (List.filter f l) <= length l.
Proof.
  induction l as [|a l IH]; simpl; [lia|]. destruct (f a); simpl; lia.
Qed.

Lemma filter_sub {A} (f : A -> bool) (l : list A) x :
  x ∈ List.filter f l -> x ∈ l.
Proof.
  rewrite !list_elem_of_In, filter_In. tauto.
Qed.

Lemma inv_step st st' : inv st -> step st st' -> inv st'.
Proof.
  intros Hinv Hs. destruct Hs as [c now st|now id r st|now st|st].
  - unfold invoke. apply inv_dispatch.
    destruct Hinv as [H1 H2 H3 H4]. by constructor.
  - unfold on_response. destruct (find_pending id (pending st)) as [p|].
    + apply inv_dispatch, inv_shrink; [done| |].
      * intros q. unfold remove_pending. apply filter_sub.
      * apply filter_length_le.
    + destruct Hinv as [H1 H2 H3 H4]. by constructor.
  - unfold tick. apply inv_dispatch, inv_shrink; [done| |].
    + intros q. apply filter_sub.
    + apply filter_length_le.
  - apply (inv_shrink st); [done|set_solver|simpl; lia].
Qed.

Lemma reachable_inv st : reachable st -> inv st.
Proof.
  induction 1; [apply inv_fresh|]. eauto using inv_step.
Qed.

(** The request log only grows, by appending. *)
Lemma dispatch_wire_prefix now st : wire st `prefix_of` wire (dispatch now st).
Proof.
  unfold dispatch. destruct (pending st), (waiting st); simpl; try done.
  by apply prefix_app_r.
Qed.

Lemma step_wire_prefix st st' : step st st' -> wire st `prefix_of` wire st'.
Proof.
  destruct 1 as [c now st|now id r st|now st|st].
  - apply (dispatch_wire_prefix now (mkEngine _ _ _ (wire st) _ _)).
  - unfold on_response. destruct (find_pending id (pending st)); [|done].
    apply (dispatch_wire_prefix now (mkEngine _ _ _ (wire st) _ _)).
  - apply (dispatch_wire_prefix now (mkEngine _ _ _ (wire st) _ _)).
  - done.
Qed.

Lemma dispatch_results now st : results (dispatch now st) = results st.
Proof. unfold dispatch. by destruct (pending st), (waiting st). Qed.

Lemma dispatch_pending_ids now st p :
  p ∈ pending (dispatch now st) -> p ∈ pending st \/ p_id p = next_id st.
Proof.
  unfold dispatch. destruct (pending st) eqn:E, (waiting st); simpl;
    rewrite ?E; auto.
  intros Hin. apply list_elem_of_singleton in Hin as ->. by right.
Qed.


Lemma find_pending_none id (ps : list Pending) :
  (forall q, q ∈ ps -> p_id q <> id) -> find_pending id ps = None.
Proof.
  induction ps as [|q ps IH]; intros H; simpl; [done|].
  destruct (Nat.eqb_spec (p_id q) id) as [E|E].
  - exfalso. apply (H q); [set_solver|done].
  - apply IH. intros q' Hq'. apply H. set_solver.
Qed.

Lemma dispatch_next_id now st : next_id st <= next_id (dispatch now st).
Proof. unfold dispatch. destruct (pending st), (waiting st); simpl; lia. Qed.

(** Every entry of the in-flight table after a step was already there,
    or carries an id at least the [next_id] before the step. *)
Lemma step_new_pending st st' p :
  step st st' -> p ∈ pending st' -> p ∉ pending st -> next_id st <= p_id p.
Proof.
  intros Hs Hin Hnot. destruct Hs as [c now st|now id r st|now st|st].
  - apply dispatch_pending_ids in Hin as [Hin|Hin]; simpl in *;
      [contradiction|lia].
  - unfold on_response in Hin. destruct (find_pending id (pending st)).
    + apply dispatch_pending_ids in Hin as [Hin|Hin]; simpl in *; [|lia].
      exfalso. apply Hnot. by eapply filter_sub.
    + contradiction.
  - apply dispatch_pending_ids in Hin as [Hin|Hin]; simpl in *; [|lia].
    exfalso. apply Hnot. by eapply filter_sub.
  - simpl in Hin. set_solver.
Qed.

Lemma step_next_id st st' : step st st' -> next_id st <= next_id st'.
Proof.
  destruct 1 as [c now st|now id r st|now st|st].
  - apply (dispatch_next_id now (mkEngine (next_id st) _ _ _ _ _)).
  - unfold on_response. destruct (find_pending id (pending st)); [|done].
    apply (dispatch_next_id now (mkEngine (next_id st) _ _ _ _ _)).
  - apply (dispatch_next_id now (mkEngine (next_id st) _ _ _ _ _)).
  - done.
Qed.

(** A response whose id has no PendingRequest only adds a log entry. *)
Lemma on_response_stray now id r st :
  find_pending id (pending st) = None ->
  on_response now id r st =
  mkEngine (next_id st) (waiting st) (pending st) (wire st) (results st)
    (log st ++ ["discarded response without pending request"%string]).
Proof. intros H. unfold on_response. by rewrite H. Qed.

(** Claim C1: when the timeout of an outstanding request elapses, its
    caller receives [RequestTimeout] and the in-flight table holds no
    entry with that id any more; a response whose id has no pending
    entry (late, duplicate or unknown) is only logged: the id counter,
    the invoke queue, the in-flight table, the written requests and the
    outcomes of every other caller are untouched, and no fault arises.
    In particular the late response to a timed-out request is ignored. *)
Theorem timeout_then_late_response_ignored st :
  reachable st ->
  (forall p now, p ∈ pending st -> p_deadline p <= now ->
     (p_ticket p, ORequestTimeout) ∈ results (tick now st) /\
     find_pending (p_id p) (pending (tick now st)) = None /\
     (forall now' r,
        on_response now' (p_id p) r (tick now st) =
        mkEngine (next_id (tick now st)) (waiting (tick now st))
          (pending (tick now st)) (wire (tick now st))
          (results (tick now st))
          (log (tick now st)
             ++ ["discarded response without pending request"%string]))) /\
  (forall now id r, find_pending id (pending st) = None ->
     on_response now id r st =
     mkEngine (next_id st) (waiting st) (pending st) (wire st) (results st)
       (log st ++ ["discarded response without pending request"%string])).
Proof.
  intros Hr. pose proof (reachable_inv st Hr) as Hinv. split.
  - intros p now Hp Hdl.
    assert (pending st = [p]) as Hps.
    { destruct Hinv as [H1 _ _ _].
      destruct (pending st) as [|q [|q' qs]] eqn:E; simpl in H1; [set_solver| |lia].
      apply list_elem_of_singleton in Hp. by subst. }
    assert (p_id p < next_id st) as Hlt by (apply (inv_pending_lt _ Hinv); done).
    assert (find_pending (p_id p) (pending (tick now st)) = None) as Hnone.
    { apply find_pending_none. intros q Hq. unfold tick in Hq.
      apply dispatch_pending_ids in Hq as [Hq|Hq]; simpl in Hq.
      - rewrite Hps in Hq. simpl in Hq. unfold expired in Hq.
        assert ((p_deadline p <=? now) = true) as E by (apply Nat.leb_le; lia).
        rewrite E in Hq. simpl in Hq. set_solver.
      - lia. }
    split; [|split].
    + unfold tick. rewrite dispatch_results. simpl. rewrite Hps. simpl.
      unfold expired.
      assert ((p_deadline p <=? now) = true) as E by (apply Nat.leb_le; lia).
      rewrite E. set_solver.
    + done.
    + intros now' r. by apply on_response_stray.
  - intros now id r H. by apply on_response_stray.
Qed.

(** Claim C2: on every connection at most one request is in flight at
    any instant, and an [invoke] issued while a request is outstanding
    is appended to the invoke queue without anything being written to
    the pipe. *)
Theorem at_most_one_request_in_flight st :
  reachable st ->
  length (pending st) <= 1 /\
  (forall c now, pending st <> [] ->
     wire (invoke c now st) = wire st /\
     pending (invoke c now st) = pending st /\
     waiting (invoke c now st) = waiting st ++ [c]).
Proof.
  intros Hr. split; [apply (inv_single _ (reachable_inv st Hr))|].
  intros c now Hne. unfold invoke, dispatch. simpl.
  destruct (pending st) as [|p ps]; [done|]. simpl. done.
Qed.

(** Claim C4: the ids of the requests written on a connection are
    strictly increasing in the order they are written, the written log
    only grows by appending, the id counter never decreases, and every
    entry that enters the in-flight table carries an id no smaller than
    the counter, which exceeds the id of every outstanding entry: an id
    is never reused while a PendingRequest bearing it is outstanding. *)
Theorem request_ids_monotone_and_fresh st :
  reachable st ->
  increasing (map fst (wire st)) /\
  (forall p, p ∈ pending st -> p_id p < next_id st) /\
  (forall st', step st st' ->
     (wire st `prefix_of` wire st') /\ next_id st <= next_id st' /\
     (forall p, p ∈ pending st' -> p ∉ pending st ->
        next_id st <= p_id p /\ forall q, q ∈ pending st -> p_id q <> p_id p)).
Proof.
  intros Hr. pose proof (reachable_inv st Hr) as [H1 H2 H3 H4].
  split; [done|split; [done|]].
  intros st' Hs. split; [by apply step_wire_prefix|split; [by apply step_next_id|]].
  intros p Hin Hnot. pose proof (step_new_pending st st' p Hs Hin Hnot).
  split; [done|]. intros q Hq. specialize (H2 q Hq). lia.
Qed.

End EngineFacts.

(* ================================================================= *)
(** ** Server Registry: name conflicts *)
(* ================================================================= *)

Module RegistryFacts.
Import Registry.

(** Claim C3: a [create] (the registry side of [registerServer]) whose
    name is already registered fails with [NameConflict] and returns the
    registry exactly as it was: the existing config and the persisted
    store are unchanged. *)
Theorem create_existing_name_conflict catalog proc_env persist_ok n k
    overrides (r : registry) (c : ServerConfig) :
  configs r !! n = Some c ->
  create catalog proc_env persist_ok n k overrides r = (inr NameConflict, r).
Proof. intros H. unfold create. by rewrite H. Qed.

End RegistryFacts.

(* ================================================================= *)
(** ** Process Supervisor: invariants *)
(* ================================================================= *)

Module SupervisorFacts.
Import Engine Registry Supervisor.

(** A Tool Cache entry only exists for a [Running] server, and a
    [Running] server always has its ProcessHandle. *)
Record sinv (s : sup) : Prop := {
  sinv_cache : forall n tools, tool_cache s !! n = Some tools ->
    exists e, entries s !! n = Some e /\ e_state e = Running;
  sinv_handle : forall n e, entries s !! n = Some e ->
    e_state e = Running -> is_Some (e_handle e)
}.

Lemma start_cases cfg now out s :
  (exists h eng, entries s !! name cfg = Some (mkEntry Running (Some h) eng) /\
     start cfg now out s = (StartOk h None, s)) \/
  ((forall h eng, entries s !! name cfg <> Some (mkEntry Running (Some h) eng)) /\
     start cfg now out s = launch cfg now out s).
Proof.
  unfold start.
  destruct (entries s !! name cfg) as [[st hd eng]|] eqn:E;
    [destruct st; destruct hd|].
  all: try (left; eexists _, _; split; [reflexivity|reflexivity]).
  all: right; split; [intros h' eng'; congruence|reflexivity].
Qed.

Lemma sinv_init : sinv init.
Proof. constructor; simpl; intros ?? H; [done|]. done. Qed.

Lemma sinv_launch cfg now out s :
  sinv s -> tool_cache s !! name cfg = None -> sinv (snd (launch cfg now out s)).
Proof.
  intros [Hc Hh] Hn. unfold launch.
  destruct out as [msg|msg|disc]; constructor; cbn [snd tool_cache entries].
  1,3: intros m tools Hm; destruct (decide (name cfg = m)) as [<-|Hne];
       [congruence|rewrite lookup_insert_ne by done; eauto].
  1,2: intros m e; rewrite lookup_insert; case_decide;
       [intros [= <-]; simpl; discriminate|eauto].
  - intros m tools Hm. rewrite lookup_insert in Hm. case_decide.
    + subst m. eexists; split; [apply lookup_insert_eq|done].
    + rewrite lookup_insert_ne by done. eauto.
  - intros m e. rewrite lookup_insert. case_decide; [|eauto].
    intros [= <-] _. simpl. eauto.
Qed.

Lemma sinv_start cfg now out s : sinv s -> sinv (snd (start cfg now out s)).
Proof.
  intros Hs. destruct (start_cases cfg now out s) as [(h & eng & _ & ->)|[Hnot ->]];
    [done|].
  apply sinv_launch; [done|].
  destruct (tool_cache s !! name cfg) as [tools|] eqn:Ht; [|done].
  exfalso. destruct (sinv_cache s Hs _ _ Ht) as [[st hd eng] [He Hst]].
  simpl in Hst. subst st.
  destruct (sinv_handle s Hs _ _ He eq_refl) as [h Hh]. simpl in Hh. subst hd.
  by apply (Hnot h eng).
Qed.

Lemma sinv_replace_stopped s n (e' : Entry) :
  sinv s -> e_state e' <> Running ->
  sinv (mkSup (<[n := e']> (entries s)) (delete n (tool_cache s))
          (next_pid s) (transitions s) (signals s)).
Proof.
  intros [Hc Hh] Hne. constructor; simpl.
  - intros m tools. rewrite lookup_delete, lookup_insert.
    case_decide; [done|eauto].
  - intros m e. rewrite lookup_insert. case_decide; [|eauto].
    intros [= <-]. done.
Qed.

Lemma sinv_stop n g s : sinv s -> sinv (stop n g s).
Proof.
  intros Hs. pose proof (sinv_replace_stopped s n
    (mkEntry Stopped None (match entries s !! n with
                           | Some e => crash (e_engine e) | None => fresh end))
    Hs ltac:(discriminate)) as [Hc Hh].
  constructor; [exact Hc|exact Hh].
Qed.

Lemma sinv_exit n s : sinv s -> sinv (process_exited n s).
Proof.
  intros Hs. unfold process_exited.
  destruct (entries s !! n) as [[st hd eng]|]; [destruct st|]; try done.
  pose proof (sinv_replace_stopped s n
    (mkEntry (Failed exit_reason) None (crash eng)) Hs ltac:(discriminate))
    as [Hc Hh].
  constructor; [exact Hc|exact Hh].
Qed.

Lemma sinv_conn n ev s : sinv s -> sinv (on_connection n ev s).
Proof.
  intros [Hc Hh]. unfold on_connection.
  destruct (entries s !! n) as [[st hd eng]|] eqn:E; [destruct st|];
    try (constructor; assumption).
  constructor; simpl.
  - intros m tools Hm. destruct (decide (n = m)) as [<-|Hne].
    + eexists; split; [apply lookup_insert_eq|done].
    + rewrite lookup_insert_ne by done. eauto.
  - intros m e. rewrite lookup_insert. case_decide; [|eauto].
    intros [= <-] _. simpl. subst m. apply (Hh n _ E). done.
Qed.

Lemma reachable_sinv s : reachable s -> sinv s.
Proof.
  induction 1 as [|ev s _ IH]; [apply sinv_init|].
  destruct ev; simpl.
  - by apply sinv_start.
  - by apply sinv_stop.
  - by apply sinv_exit.
  - by apply sinv_conn.
Qed.


Lemma crash_fails_all (eng : engine) :
  pending (crash eng) = [] /\ waiting (crash eng) = [] /\
  (forall p, p ∈ pending eng -> (p_ticket p, OProcessCrashed) ∈ results (crash eng)) /\
  (forall c, c ∈ waiting eng -> (c_ticket c, OProcessCrashed) ∈ results (crash eng)).
Proof.
  split; [done|split; [done|split]].
  - intros p Hp. simpl. apply elem_of_app. right. apply elem_of_app. left.
    apply list_elem_of_fmap. eauto.
  - intros c Hc. simpl. apply elem_of_app. right. apply elem_of_app. right.
    apply list_elem_of_fmap. eauto.
Qed.

(** Claim C5: when the process of a [Running] server exits unexpectedly,
    the server goes directly to [Failed] (one transition, no other state
    in between), loses its handle and Tool Cache entry, and every request
    pending or queued on its connection gets [ProcessCrashed], leaving
    nothing outstanding; the other servers are not touched. *)
Theorem running_exit_fails_pending s n (e : Entry) :
  entries s !! n = Some e -> e_state e = Running ->
  entries (process_exited n s) !! n =
    Some (mkEntry (Failed exit_reason) None (crash (e_engine e))) /\
  transitions (process_exited n s) = transitions s ++ [(n, Failed exit_reason)] /\
  tool_cache (process_exited n s) !! n = None /\
  pending (crash (e_engine e)) = [] /\ waiting (crash (e_engine e)) = [] /\
  (forall p, p ∈ pending (e_engine e) ->
     (p_ticket p, OProcessCrashed) ∈ results (crash (e_engine e))) /\
  (forall c, c ∈ waiting (e_engine e) ->
     (c_ticket c, OProcessCrashed) ∈ results (crash (e_engine e))) /\
  (forall m, m <> n -> entries (process_exited n s) !! m = entries s !! m).
Proof.
  intros He Hst. destruct e as [st hd eng]. simpl in Hst. subst st.
  unfold process_exited. rewrite He. cbn [entries transitions tool_cache e_engine].
  split; [apply lookup_insert_eq|split; [done|split; [apply lookup_delete_eq|]]].
  split; [|split; [|split; [|split]]]; try apply crash_fails_all.
  intros m Hm. by apply lookup_insert_ne.
Qed.

(** Claim C6: [stop n] always leaves server [n] in [Stopped] (its last
    transition, entered from [Stopping]) without a handle and with no
    Tool Cache entry; in every reachable state a Tool Cache entry only
    exists for a [Running] server, and the only event that creates one
    is a [start] of that server whose handshake succeeded.  Entries are
    removed by [stop] (here) and by a crash (claim C5). *)
Theorem stop_stopped_and_cache_lifetime s :
  reachable s ->
  (forall n g,
     entries (stop n g s) !! n =
       Some (mkEntry Stopped None
               (match entries s !! n with
                | Some e => crash (e_engine e) | None => fresh end)) /\
     tool_cache (stop n g s) !! n = None /\
     transitions (stop n g s) = transitions s ++ [(n, Stopping); (n, Stopped)]) /\
  (forall n tools, tool_cache s !! n = Some tools ->
     exists e, entries s !! n = Some e /\ e_state e = Running) /\
  (forall ev n, tool_cache s !! n = None ->
     is_Some (tool_cache (run_event ev s) !! n) ->
     exists cfg now disc, ev = EvStart cfg now (HandshakeOk disc) /\ name cfg = n).
Proof.
  intros Hr. pose proof (reachable_sinv s Hr) as Hinv.
  split; [|split; [apply (sinv_cache s Hinv)|]].
  - intros n g. unfold stop. cbn [entries tool_cache transitions].
    split; [apply lookup_insert_eq|split; [apply lookup_delete_eq|done]].
  - intros ev n Hn Hsome. destruct ev as [cfg now out|m g|m|m ev]; cbn [run_event] in Hsome.
    + destruct (start_cases cfg now out s) as [(h & eng & _ & Heq)|[_ Heq]];
        rewrite Heq in Hsome; cbn [snd] in Hsome;
        [rewrite Hn in Hsome; by destruct Hsome|].
      unfold launch in Hsome.
      destruct out as [msg|msg|disc]; cbn [snd tool_cache] in Hsome;
        [rewrite Hn in Hsome; by destruct Hsome|rewrite Hn in Hsome; by destruct Hsome|].
      rewrite lookup_insert in Hsome. case_decide as Heqn.
      * by exists cfg, now, disc.
      * rewrite Hn in Hsome. by destruct Hsome.
    + unfold stop in Hsome. cbn [tool_cache] in Hsome.
      rewrite lookup_delete in Hsome. case_decide; [by destruct Hsome|].
      rewrite Hn in Hsome. by destruct Hsome.
    + unfold process_exited in Hsome.
      destruct (entries s !! m) as [[st hd eng]|]; [destruct st|];
        cbn [tool_cache] in Hsome; try (rewrite Hn in Hsome; by destruct Hsome).
      rewrite lookup_delete in Hsome. case_decide; [by destruct Hsome|].
      rewrite Hn in Hsome. by destruct Hsome.
    + unfold on_connection in Hsome.
      destruct (entries s !! m) as [[st hd eng]|]; [destruct st|];
        cbn [tool_cache] in Hsome; rewrite Hn in Hsome; by destruct Hsome.
Qed.

(** Claim C7: [start] on a server that is already [Running] returns its
    existing ProcessHandle and leaves the whole supervisor state as it
    was: no process is spawned (the pid counter is unchanged), and the
    entries, handles, Tool Cache, lifecycle history and signals are
    untouched. *)
Theorem start_on_running_is_noop s cfg now out (e : Entry) :
  reachable s -> entries s !! name cfg = Some e -> e_state e = Running ->
  exists h, e_handle e = Some h /\ start cfg now out s = (StartOk h None, s).
Proof.
  intros Hr He Hst. pose proof (reachable_sinv s Hr) as Hinv.
  destruct (sinv_handle s Hinv _ _ He Hst) as [h Hh].
  exists h. split; [done|].
  destruct e as [st hd eng]. simpl in Hst, Hh. subst st hd.
  unfold start. by rewrite He.
Qed.

End SupervisorFacts.

(* ================================================================= *)
(** ** Frontend: JSON helpers, zero servers, one request in flight *)
(* ================================================================= *)

Module FrontendFacts.
Import Frontend.

Lemma last_char_cons c t :
  last_char (String c t) = match t with EmptyString => Some c | _ => last_char t end.
Proof. by destruct t. Qed.

Lemma last_char_snoc body d :
  last_char (String.append body (String d EmptyString)) = Some d.
Proof.
  induction body as [|c body IH]; [done|].
  change (String.append (String c body) (String d EmptyString))
    with (String c (String.append body (String d EmptyString))).
  rewrite last_char_cons. destruct body; done.
Qed.

Lemma last_char_some t d :
  last_char t = Some d -> exists body, t = String.append body (String d EmptyString).
Proof.
  induction t as [|c t IH]; [done|]. rewrite last_char_cons. destruct t as [|c' t'].
  - intros [= ->]. by exists EmptyString.
  - intros H. destruct (IH H) as [body Hb]. exists (String c body). simpl. by rewrite Hb.
Qed.

Lemma starts_ends_shape (c d : ascii) (t : string) : c <> d ->
  (startsWith c t && endsWith d t = true <->
   exists body, t = String c (String.append body (String d EmptyString))).
Proof.
  intros Hcd. split.
  - destruct t as [|c' rest]; [done|]. unfold startsWith, endsWith.
    rewrite andb_true_iff, !Ascii.eqb_eq. intros [-> Hend].
    destruct (last_char (String c rest)) as [d'|] eqn:E; [|done].
    apply Ascii.eqb_eq in Hend. subst d'. rewrite last_char_cons in E.
    destruct rest as [|c'' rest'].
    + congruence.
    + destruct (last_char_some _ _ E) as [body Hb]. exists body. by rewrite Hb.
  - intros [body ->]. unfold startsWith, endsWith.
    rewrite last_char_cons.
    assert (String.append body (String d EmptyString) <> EmptyString) as Hne
      by (destruct body; discriminate).
    destruct (String.append body (String d EmptyString)) eqn:E; [done|].
    rewrite <- E, last_char_snoc, !Ascii.eqb_refl. done.
Qed.

(** Claim C9: [parseJsonSafely] never throws, whatever [JSON.parse]
    does: it returns the parsed value when [JSON.parse] succeeds and
    [null] when it throws; [isJsonString] never throws and returns true
    exactly when the trimmed string has the form ["{" body "}"] or
    ["[" body "]"]; hence rendering the body of any message, tool
    message with JSON content or not, never throws. *)
Theorem json_helpers_never_throw (JSON_parse : string -> Result json) (str : string) :
  parseJsonSafely JSON_parse str =
    Ok (match JSON_parse str with Ok v => v | Throw _ => JNull end) /\
  (isJsonString str = Ok true \/ isJsonString str = Ok false) /\
  (isJsonString str = Ok true <->
   exists body,
     trim str = String "{" (String.append body "}") \/
     trim str = String "[" (String.append body "]")) /\
  (forall m expanded, exists out, render_content JSON_parse m expanded = Ok out).
Proof.
  split; [|split; [|split]].
  - unfold parseJsonSafely, try_catch. by destruct (JSON_parse str).
  - unfold isJsonString, try_catch.
    destruct (_ || _); [by left|by right].
  - unfold isJsonString, try_catch. split.
    + intros [= H]. apply orb_true_iff in H as [H|H].
      * apply starts_ends_shape in H as [body Hb]; [|discriminate].
        exists body. by left.
      * apply starts_ends_shape in H as [body Hb]; [|discriminate].
        exists body. by right.
    + intros [body [Hb|Hb]]; f_equal; apply orb_true_iff.
      * left. apply starts_ends_shape; [discriminate|]. by exists body.
      * right. apply starts_ends_shape; [discriminate|]. by exists body.
  - intros m expanded. unfold render_content.
    destruct (role m); try (eexists; reflexivity).
    unfold isJsonString, try_catch, bind.
    destruct (_ || _); [|eexists; reflexivity].
    destruct expanded; [|eexists; reflexivity].
    unfold parseJsonSafely, try_catch. destruct (JSON_parse (content m));
      eexists; reflexivity.
Qed.

(** At most one [/chat] request is outstanding and [loading] says
    whether there is one. *)
Definition uinv (u : ui) : Prop :=
  (loading u = false /\ inflight u = []) \/
  (loading u = true /\ exists b, inflight u = [b]).

Lemma uinv_event ev u : uinv u -> uinv (ui_event ev u).
Proof.
  intros Hu. destruct ev as [now|text|names|now resp]; simpl; try exact Hu.
  - unfold sendMessage. destruct (String.eqb _ _ || loading u) eqn:G; [exact Hu|].
    apply orb_false_iff in G as [_ G]. right. simpl. split; [done|].
    destruct Hu as [[_ ->]|[G' _]]; [|congruence]. eauto.
  - unfold settle. destruct Hu as [[Hl Hi]|[Hl [b Hi]]]; rewrite Hi.
    + left. by split.
    + left. by split.
Qed.

Lemma ui_reachable_uinv u : ui_reachable u -> uinv u.
Proof.
  induction 1; [by left|]. by apply uinv_event.
Qed.

(** Claim C10: in every reachable state of the page at most one [/chat]
    request is in flight and [loading] is set exactly while one is;
    [sendMessage] with a blank input or while [loading] changes nothing
    and issues no request; when the request settles, with reply data or
    with an exception, [loading] is reset to false and nothing remains in
    flight; and with [loading] false a non-blank input is sent again. *)
Theorem one_chat_request_in_flight u :
  ui_reachable u ->
  length (inflight u) <= 1 /\
  (loading u = true <-> inflight u <> []) /\
  (forall now, (trim (input u) = "" \/ loading u = true) -> sendMessage now u = u) /\
  (forall now resp, inflight u <> [] ->
     loading (settle now resp u) = false /\ inflight (settle now resp u) = []) /\
  (forall now, trim (input u) <> "" -> loading u = false ->
     loading (sendMessage now u) = true /\
     inflight (sendMessage now u) = [chat_body now u]).
Proof.
  intros Hr. pose proof (ui_reachable_uinv u Hr) as Hu.
  split; [|split; [|split; [|split]]].
  - destruct Hu as [[_ ->]|[_ [b ->]]]; simpl; lia.
  - destruct Hu as [[-> ->]|[-> [b ->]]]; split; try done.
  - intros now Hg. unfold sendMessage.
    destruct Hg as [Hg|Hg]; rewrite Hg; [done|]. by rewrite orb_true_r.
  - intros now resp Hne. unfold settle.
    destruct Hu as [[_ Hi]|[_ [b ->]]]; [done|]. done.
  - intros now Hin Hl. unfold sendMessage.
    apply String.eqb_neq in Hin. rewrite Hin, Hl. simpl. split; [done|].
    destruct Hu as [[_ ->]|[Hl' _]]; [done|congruence].
Qed.

(** Claim C8: with no server selected, [sendMessage] (input non-blank,
    not loading) still issues its [/chat] request, with [enabled_servers]
    null, and the chat endpoint then works with an empty tool set; with
    some servers selected it sends exactly that list. *)
Theorem zero_servers_empty_tool_set u now cache :
  selectedServers u = [] -> trim (input u) <> "" -> loading u = false ->
  inflight (sendMessage now u) = inflight u ++ [chat_body now u] /\
  enabled_servers (chat_body now u) = None /\
  Chat.chat_tools cache (enabled_servers (chat_body now u)) = [] /\
  (forall u' now', selectedServers u' <> [] ->
     enabled_servers (chat_body now' u') = Some (selectedServers u')).
Proof.
  intros Hsel Hin Hl. split; [|split; [|split]].
  - unfold sendMessage. apply String.eqb_neq in Hin. by rewrite Hin, Hl.
  - unfold chat_body. simpl. by rewrite Hsel.
  - unfold chat_body. simpl. by rewrite Hsel.
  - intros u' now' Hne. unfold chat_body. simpl.
    destruct (selectedServers u') as [|s ss]; [done|]. done.
Qed.

End FrontendFacts.

(* ================================================================= *)
(** ** Witnesses: the theorems applied to the sample states *)
(* ================================================================= *)

Module Witnesses.
Import Engine Registry Supervisor Frontend Samples.

Lemma timeout_then_late_response_ignored_witness :
  Engine.reachable eng1 /\
  (7, ORequestTimeout) ∈ results (tick 5 eng1) /\
  find_pending 1 (pending (tick 5 eng1)) = None.
Proof.
  assert (Engine.reachable eng1) as R
    by exact (ReachStep _ _ ReachFresh (StInvoke call_a 0 fresh)).
  split; [exact R|].
  destruct (EngineFacts.timeout_then_late_response_ignored eng1 R) as [H _].
  destruct (H (mkPending 1 7 "tools/call" 0 5) 5) as [H1 [H2 _]].
  - change (pending eng1) with [mkPending 1 7 "tools/call" 0 5].
    by apply list_elem_of_singleton.
  - simpl. lia.
  - split; [exact H1|exact H2].
Defined.

Lemma at_most_one_request_in_flight_witness :
  Engine.reachable eng1 /\ length (pending eng1) <= 1 /\
  wire (invoke call_b 1 eng1) = wire eng1.
Proof.
  assert (Engine.reachable eng1) as R
    by exact (ReachStep _ _ ReachFresh (StInvoke call_a 0 fresh)).
  destruct (EngineFacts.at_most_one_request_in_flight eng1 R) as [H1 H2].
  split; [exact R|split; [exact H1|]].
  apply (H2 call_b 1). vm_compute. discriminate.
Defined.

Lemma request_ids_monotone_and_fresh_witness :
  Engine.reachable eng3 /\ EngineFacts.increasing (map fst (wire eng3)) /\
  map fst (wire eng3) = [1; 2].
Proof.
  assert (Engine.reachable eng3) as R.
  { apply (ReachStep eng2). apply (ReachStep eng1).
    - exact (ReachStep _ _ ReachFresh (StInvoke call_a 0 fresh)).
    - apply StInvoke.
    - apply StResponse. }
  destruct (EngineFacts.request_ids_monotone_and_fresh eng3 R) as [H _].
  split; [exact R|split; [exact H|]]. vm_compute. reflexivity.
Defined.

Lemma create_existing_name_conflict_witness :
  configs reg1 !! "s1" = Some cfg_s1 /\
  create (<["stripe-like" := stripe_template]> ∅) ∅ true "s1" "stripe-like"
    (<["API_KEY" := "other"]> ∅) reg1 = (inr NameConflict, reg1).
Proof.
  assert (configs reg1 !! "s1" = Some cfg_s1) as H by reflexivity.
  split; [exact H|].
  exact (RegistryFacts.create_existing_name_conflict _ _ true "s1" "stripe-like"
           _ reg1 cfg_s1 H).
Defined.

Lemma running_exit_fails_pending_witness :
  entries sup2 !! "s1" = Some entry_s1 /\ e_state entry_s1 = Running /\
  pending (e_engine entry_s1) <> [] /\
  (7, OProcessCrashed) ∈ results (crash (e_engine entry_s1)) /\
  transitions (process_exited "s1" sup2) =
    transitions sup2 ++ [("s1", Failed exit_reason)].
Proof.
  assert (entries sup2 !! "s1" = Some entry_s1) as H1 by reflexivity.
  assert (e_state entry_s1 = Running) as H2 by reflexivity.
  destruct (SupervisorFacts.running_exit_fails_pending sup2 "s1" entry_s1 H1 H2)
    as (_ & Ht & _ & _ & _ & Hp & _).
  split; [exact H1|split; [exact H2|split; [vm_compute; discriminate|split]]].
  - apply (Hp (mkPending 3 7 "tools/call" 1 6)).
    change (pending (e_engine entry_s1)) with [mkPending 3 7 "tools/call" 1 6].
    by apply list_elem_of_singleton.
  - exact Ht.
Defined.

Lemma stop_stopped_and_cache_lifetime_witness :
  Supervisor.reachable sup1 /\ tool_cache sup1 !! "s1" = Some [list_items] /\
  tool_cache (stop "s1" false sup1) !! "s1" = None.
Proof.
  assert (Supervisor.reachable sup1) as R
    by exact (SReachStep (EvStart cfg_s1 0 (HandshakeOk (Some [list_items])))
                init SReachInit).
  destruct (SupervisorFacts.stop_stopped_and_cache_lifetime sup1 R) as [H _].
  split; [exact R|split; [reflexivity|]].
  apply (H "s1" false).
Defined.

Lemma start_on_running_is_noop_witness :
  Supervisor.reachable sup1 /\
  start cfg_s1 5 (SpawnFails "unused") sup1 =
    (StartOk (mkHandle "s1" 1 0) None, sup1).
Proof.
  assert (Supervisor.reachable sup1) as R
    by exact (SReachStep (EvStart cfg_s1 0 (HandshakeOk (Some [list_items])))
                init SReachInit).
  split; [exact R|].
  destruct (SupervisorFacts.start_on_running_is_noop sup1 cfg_s1 5
              (SpawnFails "unused")
              (mkEntry Running (Some (mkHandle "s1" 1 0))
                 (after_handshake 0 (Some [list_items])))
              R eq_refl eq_refl) as [h [Hh Hs]].
  injection Hh as <-. exact Hs.
Defined.

Lemma zero_servers_empty_tool_set_witness :
  enabled_servers (chat_body "T0" ui1) = None /\
  inflight (sendMessage "T0" ui1) = [chat_body "T0" ui1] /\
  Chat.chat_tools (tool_cache sup1) (enabled_servers (chat_body "T0" ui1)) = [].
Proof.
  assert (trim (input ui1) <> "") as Hin by (vm_compute; discriminate).
  destruct (FrontendFacts.zero_servers_empty_tool_set ui1 "T0" (tool_cache sup1)
              eq_refl Hin eq_refl) as (H1 & H2 & H3 & _).
  split; [exact H2|split; [exact H1|exact H3]].
Defined.

Lemma one_chat_request_in_flight_witness :
  ui_reachable ui2 /\ loading ui2 = true /\ length (inflight ui2) <= 1 /\
  loading (settle "T1" (RespThrows (NetworkError "down")) ui2) = false.
Proof.
  assert (ui_reachable ui2) as R
    by exact (UiReachStep (UiSend "T0") ui1
                (UiReachStep (UiType "hello") ui_init UiReachInit)).
  destruct (FrontendFacts.one_chat_request_in_flight ui2 R)
    as (H1 & _ & _ & H4 & _).
  split; [exact R|split; [reflexivity|split; [exact H1|]]].
  apply H4. vm_compute. discriminate.
Defined.

End Witnesses.

(* ================================================================= *)
(** ** The [Home] component: selection, toasts, keys and rendering *)
(* ================================================================= *)

Module PageFacts.
Import Frontend.


(** The events that keep server names unique: [data.servers] is a
    JavaScript object, so its keys are distinct. *)
Definition wf_event (ev : Page.PageEvent) : Prop :=
  match ev with
  | Page.PFetchDone _ (Page.FetchOk srvs) => NoDup (map fst srvs)
  | _ => True
  end.




Lemma includes_spec (n : string) (l : list string) : Page.includes n l = true <-> n ∈ l.
Proof.
  unfold Page.includes. rewrite existsb_exists, list_elem_of_In. split.
  - intros [x [Hx Heq]]. apply String.eqb_eq in Heq. subst. exact Hx.
  - intros H. exists n. split; [exact H | apply String.eqb_refl].
Qed.

Lemma elem_of_without (m n : string) (l : list string) :
  m ∈ Page.without n l <-> m ∈ l /\ m <> n.
Proof.
  unfold Page.without. rewrite !list_elem_of_In, filter_In, negb_true_iff, String.eqb_neq.
  tauto.
Qed.

Lemma NoDup_without (n : string) (l : list string) : NoDup l -> NoDup (Page.without n l).
Proof.
  intros H. induction l as [|x l IH]; simpl; [constructor|].
  apply NoDup_cons in H as [Hx Hl].
  destruct (negb (String.eqb x n)) eqn:E; [|auto].
  apply NoDup_cons. split; [|auto].
  intros Hin. apply Hx. apply elem_of_without in Hin. tauto.
Qed.

Lemma without_sublist (n : string) (l : list string) : Page.without n l `sublist_of` l.
Proof.
  induction l as [|x l IH]; simpl; [constructor|].
  destruct (negb (String.eqb x n)); [by apply sublist_skip | by apply sublist_cons].
Qed.

Lemma NoDup_snoc_new (n : string) (l : list string) :
  Page.includes n l = false -> NoDup l -> NoDup (l ++ [n]).
Proof.
  intros Hn Hl. apply NoDup_app. split; [exact Hl|split; [|apply NoDup_singleton]].
  intros x Hx Hx'. apply list_elem_of_singleton in Hx'. subst.
  apply includes_spec in Hx. congruence.
Qed.

Lemma NoDup_enabledServers (srvs : list (string * Page.Server)) :
  NoDup (map fst srvs) -> NoDup (Page.enabledServers srvs).
Proof.
  unfold Page.enabledServers.
  induction srvs as [|[k v] srvs IH]; simpl; intros H; [constructor|].
  apply NoDup_cons in H as [Hk Hrest].
  destruct (Page.enabled v); simpl; [|auto].
  apply NoDup_cons. split; [|auto]. intros Hin. apply Hk.
  rewrite list_elem_of_In in Hin |- *.
  apply in_map_iff in Hin as [[k' v'] [Hk' Hin]]. simpl in Hk'. subst.
  apply filter_In in Hin as [Hin _]. apply in_map_iff. eexists. split; [|exact Hin]. reflexivity.
Qed.

Lemma commit_selected (p q : Page.page) :
  Page.selectedServers (Page.commit p q) = Page.selectedServers q.
Proof. unfold Page.commit. destruct (_ =? _); reflexivity. Qed.

(** Both selection controls, as the page applies them. *)
Lemma control_selection (ev : Page.PageEvent) (p : Page.page) (row : nat)
    (n : string) (srv : Page.Server) :
  (ev = Page.PCheckbox row \/ ev = Page.PCompactClick row) ->
  Page.servers p !! row = Some (n, srv) ->
  Page.selectedServers (Page.page_event ev p) =
    if Page.enabled srv then
      if Page.includes n (Page.selectedServers p)
      then Page.without n (Page.selectedServers p)
      else Page.selectedServers p ++ [n]
    else Page.selectedServers p.
Proof.
  intros Hev Hrow. unfold Page.page_event. rewrite commit_selected.
  destruct Hev as [-> | ->]; cbn [Page.page_update]; rewrite Hrow.
  - destruct (Page.enabled srv); [|reflexivity]. cbn.
    unfold Page.checkboxChange. destruct (Page.includes _ _); reflexivity.
  - unfold Page.compactClick. cbn. destruct (Page.enabled srv); reflexivity.
Qed.

Lemma list_length_substring (n : nat) (s : string) :
  n <= String.length s -> String.length (substring 0 n s) = n.
Proof.
  revert n. induction s as [|c s IH]; intros n Hn; destruct n as [|n]; simpl in *;
    try lia; try reflexivity.
  f_equal. apply IH. lia.
Qed.

Lemma string_length_append (s t : string) :
  String.length (String.append s t) = String.length s + String.length t.
Proof.
  induction s as [|c s IH]; [reflexivity|].
  change (String.append (String c s) t) with (String c (String.append s t)).
  simpl. rewrite IH. reflexivity.
Qed.

Lemma without_id_app (i : string) (l1 l2 : list Toasts.Toast) :
  Toasts.without_id i (l1 ++ l2) = Toasts.without_id i l1 ++ Toasts.without_id i l2.
Proof. unfold Toasts.without_id. apply List.filter_app. Qed.

(** X1: [toggleMessageExpansion index] flips whether message [index] is
    expanded, leaves every other message as it was, and a second click
    restores the set. *)
Theorem toggle_expansion_flips (i j : nat) (s : gset nat) :
  (j ∈ Expansion.toggleMessageExpansion i s <->
     (if decide (j = i) then j ∉ s else j ∈ s)) /\
  Expansion.toggleMessageExpansion i (Expansion.toggleMessageExpansion i s) = s.
Proof.
  unfold Expansion.toggleMessageExpansion. split; [split|].
  1-2: destruct (decide (i ∈ s)); destruct (decide (j = i)); subst;
      rewrite ?elem_of_difference, ?elem_of_union, ?elem_of_singleton; naive_solver.
  destruct (decide (i ∈ s)) as [H|H].
  - rewrite decide_False by set_solver. apply leibniz_equiv. intros x.
    rewrite elem_of_union, elem_of_difference, elem_of_singleton.
    destruct (decide (x = i)); naive_solver.
  - rewrite decide_True by set_solver. apply leibniz_equiv. intros x.
    rewrite elem_of_difference, elem_of_union, elem_of_singleton.
    destruct (decide (x = i)); naive_solver.
Qed.

(** X2: two toasts created in the same millisecond get the same id, so
    the timer of the first one, or the close button of either, removes
    both (and any older toast with that id); other toasts stay in order. *)
Theorem same_millisecond_toasts_share_id (st : Toasts.toastState) (now : nat)
    (typ1 typ2 : Toasts.ToastType) (m1 m2 : string) (d1 d2 : nat) (Hd : 0 < d1) :
  let st2 := Toasts.addToast now typ2 m2 d2 (Toasts.addToast now typ1 m1 d1 st) in
  Toasts.toasts (Toasts.fireTimer (length (Toasts.timers st)) st2) =
    Toasts.without_id (Toasts.dateNowString now) (Toasts.toasts st) /\
  Toasts.toasts (Toasts.removeToast (Toasts.dateNowString now) st2) =
    Toasts.without_id (Toasts.dateNowString now) (Toasts.toasts st).
Proof.
  assert (Hd' : (0 <? d1) = true) by (apply Nat.ltb_lt; exact Hd).
  cbn zeta. unfold Toasts.addToast, Toasts.fireTimer, Toasts.removeToast.
  cbn [Toasts.toasts Toasts.timers]. rewrite Hd'.
  rewrite lookup_app_l by (rewrite length_app; simpl; lia).
  rewrite lookup_app_r by lia. rewrite Nat.sub_diag. cbn [lookup list_lookup].
  cbn [Toasts.toasts Toasts.removes].
  rewrite !without_id_app. cbn. rewrite String.eqb_refl. cbn.
  rewrite !app_nil_r. split; reflexivity.
Qed.

(** X3: the selection never holds a server twice: the checkbox, the
    compact icons, a completed server fetch and a successful delete all
    keep [selectedServers] free of duplicates. *)
Theorem selection_no_duplicates (ev : Page.PageEvent) (p : Page.page)
    (Hp : NoDup (Page.selectedServers p)) (Hwf : wf_event ev) :
  NoDup (Page.selectedServers (Page.page_event ev p)).
Proof.
  destruct ev as [row | row | | i r | n].
  - destruct (Page.servers p !! row) as [[n srv]|] eqn:Hrow.
    + rewrite (control_selection _ p row n srv) by auto.
      destruct (Page.enabled srv); [|exact Hp].
      destruct (Page.includes n _) eqn:Hn;
        [apply NoDup_without | apply NoDup_snoc_new]; auto.
    + unfold Page.page_event. rewrite commit_selected. cbn [Page.page_update].
      rewrite Hrow. exact Hp.
  - destruct (Page.servers p !! row) as [[n srv]|] eqn:Hrow.
    + rewrite (control_selection _ p row n srv) by auto.
      destruct (Page.enabled srv); [|exact Hp].
      destruct (Page.includes n _) eqn:Hn;
        [apply NoDup_without | apply NoDup_snoc_new]; auto.
    + unfold Page.page_event. rewrite commit_selected. cbn [Page.page_update].
      rewrite Hrow. exact Hp.
  - unfold Page.page_event. rewrite commit_selected. exact Hp.
  - unfold Page.page_event. rewrite commit_selected. cbn [Page.page_update].
    unfold Page.fetchServers_done.
    destruct (Page.serverFetches p !! i) as [b|]; [|exact Hp].
    destruct r as [srvs|]; cbn [Page.selectedServers]; [|exact Hp].
    destruct b; [apply NoDup_enabledServers; exact Hwf | exact Hp].
  - unfold Page.page_event. rewrite commit_selected. apply NoDup_without. exact Hp.
Qed.

(** X4: a click on the checkbox or on the compact icon of a disabled
    server leaves the selection as it is (a selected server that has been
    disabled stays selected); for an enabled server it flips exactly that
    server's membership. *)
Theorem server_selection_controls (ev : Page.PageEvent) (p : Page.page) (row : nat)
    (n : string) (srv : Page.Server)
    (Hev : ev = Page.PCheckbox row \/ ev = Page.PCompactClick row)
    (Hrow : Page.servers p !! row = Some (n, srv)) :
  (Page.enabled srv = false ->
     Page.selectedServers (Page.page_event ev p) = Page.selectedServers p) /\
  (Page.enabled srv = true -> forall m,
     m ∈ Page.selectedServers (Page.page_event ev p) <->
     (if decide (m = n) then m ∉ Page.selectedServers p
      else m ∈ Page.selectedServers p)).
Proof.
  rewrite (control_selection ev p row n srv Hev Hrow).
  split; intros Hen; rewrite Hen; [reflexivity|].
  intros m. destruct (Page.includes n _) eqn:Hn.
  - rewrite elem_of_without. apply includes_spec in Hn.
    case_decide; subst; [split; [intros [_ ?]; congruence | intros ?; contradiction]|].
    tauto.
  - rewrite elem_of_app, list_elem_of_singleton.
    case_decide; subst.
    + split; [intros _ Hin; apply includes_spec in Hin; congruence | intros _; by right].
    + split; [intros [?|?]; [assumption|contradiction] | intros ?; by left].
Qed.


(** X6: deselecting the last selected server (by checkbox or compact
    icon) changes [selectedServers.length], so the effect calls
    [fetchServers] again; when that fetch succeeds the selection becomes
    the enabled servers of the reply, so an empty selection does not
    last while some server is enabled. *)
Theorem deselecting_last_server_reselects (ev : Page.PageEvent) (p : Page.page)
    (row : nat) (n : string) (srv : Page.Server) (srvs : list (string * Page.Server))
    (Hev : ev = Page.PCheckbox row \/ ev = Page.PCompactClick row)
    (Hsel : Page.selectedServers p = [n])
    (Hrow : Page.servers p !! row = Some (n, srv))
    (Hen : Page.enabled srv = true) :
  let p1 := Page.page_event ev p in
  Page.selectedServers p1 = [] /\
  Page.serverFetches p1 = Page.serverFetches p ++ [true] /\
  Page.selectedServers
    (Page.page_event (Page.PFetchDone (length (Page.serverFetches p)) (Page.FetchOk srvs)) p1)
  = Page.enabledServers srvs.
Proof.
  cbn zeta.
  assert (Hp1 : Page.page_event ev p =
                Page.mkPage (Page.servers p) [] (Page.serverFetches p ++ [true])).
  { destruct p as [servers sel fetches]. cbn in Hsel, Hrow. subst sel.
    assert (Hnn : String.eqb n n = true) by apply String.eqb_refl.
    destruct Hev as [-> | ->]; unfold Page.page_event; cbn [Page.page_update Page.servers];
      rewrite Hrow; unfold Page.set_selected, Page.checkboxChange, Page.compactClick,
      Page.includes, Page.without; rewrite Hen;
      cbn [Page.selectedServers existsb List.filter negb orb]; rewrite Hnn; reflexivity. }
  rewrite Hp1. split; [reflexivity|split; [reflexivity|]].
  unfold Page.page_event. rewrite commit_selected. cbn [Page.page_update].
  unfold Page.fetchServers_done. cbn [Page.serverFetches].
  rewrite lookup_app_r by lia. rewrite Nat.sub_diag. reflexivity.
Qed.

(** X7: after a successful [deleteServer n] the server [n] is no longer
    selected, the other selected servers stay selected in their order, and
    a server fetch has been issued. *)
Theorem delete_server_deselects (p : Page.page) (n : string) :
  let p' := Page.page_event (Page.PDeleteOk n) p in
  (n ∉ Page.selectedServers p') /\
  (forall m, m <> n -> m ∈ Page.selectedServers p' <-> m ∈ Page.selectedServers p) /\
  (Page.selectedServers p' `sublist_of` Page.selectedServers p) /\
  (Page.serverFetches p `prefix_of` Page.serverFetches p') /\
  length (Page.serverFetches p) < length (Page.serverFetches p').
Proof.
  cbn zeta. unfold Page.page_event. rewrite commit_selected. cbn [Page.page_update].
  unfold Page.fetchServers_call, Page.set_selected. cbn [Page.selectedServers].
  split; [rewrite elem_of_without; tauto|].
  split; [intros m Hm; rewrite elem_of_without; tauto|].
  split; [apply without_sublist|].
  unfold Page.commit. cbn [Page.selectedServers Page.serverFetches].
  destruct (_ =? _); unfold Page.fetchServers_call; cbn [Page.serverFetches].
  - split; [by apply prefix_app_r|]. rewrite length_app. simpl. lia.
  - rewrite <- app_assoc. split; [by apply prefix_app_r|].
    rewrite !length_app. simpl. lia.
Qed.

(** X8: Shift+Enter never sends, and pressing Enter twice in a row sends
    at most one message and one request. *)
Theorem enter_twice_sends_once (u : ui) (key now1 now2 : string) :
  Keys.handleKeyPress key true now1 u = u /\
  let u2 := Keys.handleKeyPress "Enter" false now2 (Keys.handleKeyPress "Enter" false now1 u) in
  length (inflight u2) <= S (length (inflight u)) /\
  length (messages u2) <= S (length (messages u)).
Proof.
  split; [unfold Keys.handleKeyPress; rewrite andb_false_r; reflexivity|].
  assert (E : forall now v, Keys.handleKeyPress "Enter" false now v = sendMessage now v)
    by reflexivity.
  cbn zeta. rewrite (E now1 u), E. unfold sendMessage.
  destruct (String.eqb (trim (input u)) "" || loading u) eqn:G.
  - rewrite G. lia.
  - cbn [input loading]. rewrite orb_true_r. cbn [inflight messages].
    rewrite !length_app. simpl. lia.
Qed.


(** X10: the chat history only grows: every event keeps the earlier
    messages, in place, at the start of [messages], so an index used by
    [expandedMessages] keeps naming the same message. *)
Theorem ui_messages_append_only (ev : UiEvent) (u : ui) :
  messages u `prefix_of` messages (ui_event ev u).
Proof.
  destruct ev as [now | text | names | now resp]; cbn [ui_event].
  - unfold sendMessage. destruct (_ || _); [reflexivity|]. by apply prefix_app_r.
  - reflexivity.
  - reflexivity.
  - unfold settle. destruct (inflight u); [reflexivity|].
    destruct resp as [[ms|]|e]; cbn [messages]; [by apply prefix_app_r|reflexivity|by apply prefix_app_r].
Qed.

(** X11: a collapsed JSON tool message shows at most 203 characters:
    the whole content when it has at most 200 characters, otherwise its
    first 200 characters followed by "...". *)
Theorem json_preview_bounded (JSON_parse : string -> Result json) (m : Message)
    (Htool : role m = Tool) (Hjson : isJsonString (content m) = Ok true) :
  exists t, render_content JSON_parse m false = Ok (RJsonPreview t) /\
    String.length t <= 203 /\
    (String.length (content m) <= 200 -> t = content m) /\
    (200 < String.length (content m) ->
       t = String.append (substring 0 200 (content m)) "...").
Proof.
  unfold render_content. rewrite Htool, Hjson. cbn [bind].
  destruct (200 <? String.length (content m)) eqn:E.
  - apply Nat.ltb_lt in E. eexists. split; [reflexivity|].
    rewrite string_length_append, list_length_substring by lia.
    split; [simpl; lia|]. split; [lia|]. reflexivity.
  - apply Nat.ltb_ge in E. eexists. split; [reflexivity|].
    split; [lia|]. split; [reflexivity|lia].
Qed.


End PageFacts.

Module PageWitnesses.
Import Frontend PageSamples PageFacts.

Lemma same_millisecond_toasts_share_id_witness :
  0 < 5 /\
  let st2 := Toasts.addToast 1000 Toasts.Info "saved" 5
               (Toasts.addToast 1000 Toasts.Success "added" 5 (Toasts.mkToastState [] [])) in
  Toasts.toasts (Toasts.fireTimer 0 st2) = [] /\
  Toasts.toasts (Toasts.removeToast (Toasts.dateNowString 1000) st2) = [].
Proof.
  assert (Hd : 0 < 5) by lia.
  split; [exact Hd|].
  exact (same_millisecond_toasts_share_id (Toasts.mkToastState [] []) 1000
           Toasts.Success Toasts.Info "added" "saved" 5 5 Hd).
Defined.

Lemma selection_no_duplicates_witness :
  let ev := Page.PFetchDone 0 (Page.FetchOk [("fs", srv_fs); ("db", srv_db)]) in
  let p := Page.mkPage [] [] [true] in
  NoDup (Page.selectedServers p) /\ wf_event ev /\
  NoDup (Page.selectedServers (Page.page_event ev p)).
Proof.
  assert (H1 : NoDup (Page.selectedServers (Page.mkPage [] [] [true]))) by constructor.
  assert (H2 : wf_event (Page.PFetchDone 0 (Page.FetchOk [("fs", srv_fs); ("db", srv_db)]))).
  { simpl. apply NoDup_cons. split; [set_solver | apply NoDup_singleton]. }
  split; [exact H1|split; [exact H2|]].
  exact (selection_no_duplicates _ _ H1 H2).
Defined.

Lemma server_selection_controls_witness :
  (Page.PCompactClick 1 = Page.PCheckbox 1 \/ Page.PCompactClick 1 = Page.PCompactClick 1) /\
  Page.servers page_a !! 1 = Some ("db", srv_db) /\
  Page.selectedServers (Page.page_event (Page.PCompactClick 1) page_a) =
    Page.selectedServers page_a.
Proof.
  assert (Hev : Page.PCompactClick 1 = Page.PCheckbox 1 \/
                Page.PCompactClick 1 = Page.PCompactClick 1) by (right; reflexivity).
  assert (Hrow : Page.servers page_a !! 1 = Some ("db", srv_db)) by reflexivity.
  split; [exact Hev|split; [exact Hrow|]].
  apply (proj1 (server_selection_controls _ page_a 1 "db" srv_db Hev Hrow)).
  reflexivity.
Defined.


Lemma deselecting_last_server_reselects_witness :
  (Page.PCompactClick 0 = Page.PCheckbox 0 \/ Page.PCompactClick 0 = Page.PCompactClick 0) /\
  Page.selectedServers page_a = ["fs"] /\
  Page.servers page_a !! 0 = Some ("fs", srv_fs) /\ Page.enabled srv_fs = true /\
  let p1 := Page.page_event (Page.PCompactClick 0) page_a in
  Page.selectedServers p1 = [] /\
  Page.serverFetches p1 = [true] /\
  Page.selectedServers
    (Page.page_event (Page.PFetchDone 0 (Page.FetchOk [("fs", srv_fs); ("db", srv_db)])) p1)
  = ["fs"].
Proof.
  assert (Hev : Page.PCompactClick 0 = Page.PCheckbox 0 \/
                Page.PCompactClick 0 = Page.PCompactClick 0) by (right; reflexivity).
  assert (Hsel : Page.selectedServers page_a = ["fs"]) by reflexivity.
  assert (Hrow : Page.servers page_a !! 0 = Some ("fs", srv_fs)) by reflexivity.
  assert (Hen : Page.enabled srv_fs = true) by reflexivity.
  split; [exact Hev|split; [exact Hsel|split; [exact Hrow|split; [exact Hen|]]]].
  exact (deselecting_last_server_reselects _ page_a 0 "fs" srv_fs
           [("fs", srv_fs); ("db", srv_db)] Hev Hsel Hrow Hen).
Defined.


Lemma json_preview_bounded_witness :
  let m := mkMessage Tool "{ id: 1 }" (Some "lookup") TNull in
  role m = Tool /\ isJsonString (content m) = Ok true /\
  exists t, render_content (fun _ => Ok JNull) m false = Ok (RJsonPreview t) /\
    String.length t <= 203.
Proof.
  assert (H1 : role (mkMessage Tool "{ id: 1 }" (Some "lookup") TNull) = Tool)
    by reflexivity.
  assert (H2 : isJsonString (content (mkMessage Tool "{ id: 1 }" (Some "lookup") TNull))
               = Ok true) by (vm_compute; reflexivity).
  split; [exact H1|split; [exact H2|]].
  destruct (json_preview_bounded (fun _ => Ok JNull) _ H1 H2) as [t [Ht [Hl _]]].
  exists t. split; [exact Ht|exact Hl].
Defined.

End PageWitnesses.
